(** * horn: notification sounds, a shallow embedding of [horn.py]

    The module plays a [.wav] file of the current theme by spawning the
    platform player through a shell.  Everything it does to the outside
    world (listing the themes directory, probing a path, spawning a
    process, issuing a warning, calling the interpreter's default exception
    hook) is recorded, in order, in a trace carried by the program state, so
    that statements about what happened and in which order are statements
    about that trace.

    Python [str] values are represented by [string] holding their UTF-8
    encoding; [bytes] values are [list byte]. *)

From Stdlib Require Import ZArith String Ascii DecimalString.
From Stdlib.Strings Require Import Byte.
From stdpp Require Import gmap strings list.

Local Open Scope string_scope.
Local Open Scope list_scope.
Local Set Warnings "-register-all".

(** ** Text *)

Module Text.

(** [sep.join(ws)] *)
Fixpoint join (sep : string) (ws : list string) : string :=
  match ws with
  | [] => ""
  | [w] => w
  | w :: ws' => w +:+ sep +:+ join sep ws'
  end.

(** [s.split(c)] for a one-character separator. *)
Fixpoint split_on (c : ascii) (s : string) : list string :=
  match s with
  | EmptyString => [EmptyString]
  | String a s' =>
      if Ascii.eqb a c then EmptyString :: split_on c s'
      else match split_on c s' with
           | [] => [String a EmptyString]
           | w :: ws => String a w :: ws
           end
  end.

(** [s.startswith(p)] *)
Definition startswith (p s : string) : bool := String.prefix p s.

(** ['%d' % z] *)
Definition decimal (z : Z) : string := NilZero.string_of_int (Z.to_int z).

(** *** [bytes.decode()]: strict UTF-8

    The decoder accepts exactly the well-formed sequences: no stray
    continuation byte, no overlong form, no surrogate, nothing above
    U+10FFFF.  Since a [str] is kept as its UTF-8 encoding, a successful
    decode hands back the same bytes. *)

Definition cont (b : N) : bool := ((128 <=? b) && (b <=? 191))%N.
Definition between (lo hi b : N) : bool := ((lo <=? b) && (b <=? hi))%N.

Fixpoint utf8_valid (bs : list N) : bool :=
  match bs with
  | [] => true
  | b0 :: r0 =>
      if (b0 <? 128)%N then utf8_valid r0
      else if between 194 223 b0 then
        match r0 with
        | b1 :: r1 => cont b1 && utf8_valid r1
        | _ => false
        end
      else if between 224 239 b0 then
        match r0 with
        | b1 :: b2 :: r2 =>
            (if (b0 =? 224)%N then between 160 191 b1
             else if (b0 =? 237)%N then between 128 159 b1
             else cont b1)
            && cont b2 && utf8_valid r2
        | _ => false
        end
      else if between 240 244 b0 then
        match r0 with
        | b1 :: b2 :: b3 :: r3 =>
            (if (b0 =? 240)%N then between 144 191 b1
             else if (b0 =? 244)%N then between 128 143 b1
             else cont b1)
            && cont b2 && cont b3 && utf8_valid r3
        | _ => false
        end
      else false
  end.

Definition decode (bs : list byte) : option string :=
  if utf8_valid (Byte.to_N <$> bs) then Some (string_of_list_byte bs) else None.

(** *** [str.strip()]

    Without argument it removes leading and trailing characters for which
    [str.isspace] holds: U+0009..000D, U+001C..0020, U+0085, U+00A0,
    U+1680, U+2000..200A, U+2028, U+2029, U+202F, U+205F, U+3000.  They
    are matched here through their encodings. *)

Definition space1 (b : N) : bool :=
  between 9 13 b || between 28 32 b.
Definition space2 (b0 b1 : N) : bool :=
  (b0 =? 194)%N && ((b1 =? 133) || (b1 =? 160))%N.
Definition space3 (b0 b1 b2 : N) : bool :=
  ((b0 =? 225) && (b1 =? 154) && (b2 =? 128))%N
  || ((b0 =? 226)%N && (b1 =? 128)%N
      && (between 128 138 b2 || (b2 =? 168) || (b2 =? 169) || (b2 =? 175))%N)
  || ((b0 =? 226) && (b1 =? 129) && (b2 =? 159))%N
  || ((b0 =? 227) && (b1 =? 128) && (b2 =? 128))%N.

Fixpoint lstrip_bytes (bs : list N) : list N :=
  match bs with
  | [] => []
  | b0 :: r0 =>
      if space1 b0 then lstrip_bytes r0
      else match r0 with
           | b1 :: r1 =>
               if space2 b0 b1 then lstrip_bytes r1
               else match r1 with
                    | b2 :: r2 => if space3 b0 b1 b2 then lstrip_bytes r2 else bs
                    | [] => bs
                    end
           | [] => bs
           end
  end.

(** The same from the right end, on the reversed byte sequence. *)
Fixpoint rstrip_rev (bs : list N) : list N :=
  match bs with
  | [] => []
  | b0 :: r0 =>
      if space1 b0 then rstrip_rev r0
      else match r0 with
           | b1 :: r1 =>
               if space2 b1 b0 then rstrip_rev r1
               else match r1 with
                    | b2 :: r2 => if space3 b2 b1 b0 then rstrip_rev r2 else bs
                    | [] => bs
                    end
           | [] => bs
           end
  end.

Definition bytes_of (s : string) : list N := Byte.to_N <$> list_byte_of_string s.

Definition of_bytes (bs : list N) : string :=
  string_of_list_byte ((fun n => default x00 (Byte.of_N n)) <$> bs).

Definition strip (s : string) : string :=
  of_bytes (rev (rstrip_rev (rev (lstrip_bytes (bytes_of s))))).

End Text.

(** ** [pathlib]: pure POSIX paths *)

Module Pathlib.

(** A path is an anchor (empty, ["/"] or ["//"]) and its components. *)
Record Path := mkPath { anchor : string; parts : list string }.

#[global] Instance Path_eq_dec : EqDecision Path.
Proof. solve_decision. Defined.

Definition keep (w : string) : bool :=
  negb (String.eqb w "") && negb (String.eqb w ".").

(** Parsing of one path segment: empty and ["."] components vanish, a
    leading slash anchors the path (exactly two leading slashes are
    kept apart, as POSIX asks). *)
Definition parse (s : string) : Path :=
  let a :=
    if Text.startswith "///" s then "/"
    else if Text.startswith "//" s then "//"
    else if Text.startswith "/" s then "/"
    else "" in
  mkPath a (List.filter keep (Text.split_on "/" s)).

(** [p.joinpath(s)]: an anchored segment replaces what came before. *)
Definition joinpath (p : Path) (s : string) : Path :=
  let q := parse s in
  if String.eqb (anchor q) "" then mkPath (anchor p) (parts p ++ parts q)
  else q.

(** [str(p)] *)
Definition str (p : Path) : string :=
  match anchor p, parts p with
  | "", [] => "."
  | a, ws => a +:+ Text.join "/" ws
  end.

(** [p.name] *)
Definition name (p : Path) : string := List.last (parts p) "".

(** The child that [iterdir] makes for a directory entry. *)
Definition child (p : Path) (entry : string) : Path :=
  mkPath (anchor p) (parts p ++ [entry]).

End Pathlib.
Export Pathlib.

(** ** The file system seen by the module

    A directory tree without links.  [Path.exists] and [Path.iterdir] are
    the only file-system operations the module performs.  The system bounds
    the length of a name and of a path; resolving a longer one fails with an
    error of its own, which is not the absence of the file. *)

Module Disk.

Inductive node :=
| File
| Dir (entries : list (string * node)).

Definition is_dir (n : node) : bool :=
  match n with Dir _ => true | File => false end.

Fixpoint entry (name : string) (es : list (string * node)) : option node :=
  match es with
  | [] => None
  | (n, x) :: es' => if String.eqb n name then Some x else entry name es'
  end.

(** The outcome of resolving a path: the node it names; nothing (an entry
    is missing, or a component is looked for below a plain file); or a
    failure of the resolution itself, because a name is too long. *)
Inductive found :=
| Found (n : node)
| Absent
| Failed.

(** Resolution of the components [ws] from the directory [cur]; [up] holds
    the directories above it, nearest first.  A component is measured
    against [name_max] when it is looked up in a directory. *)
Fixpoint walk (name_max : nat) (up : list node) (cur : node) (ws : list string)
    : found :=
  match ws with
  | [] => Found cur
  | w :: ws' =>
      match cur with
      | File => Absent
      | Dir es =>
          if String.eqb w "." then walk name_max up cur ws'
          else if String.eqb w ".." then
            match up with
            | [] => walk name_max [] cur ws'
            | d :: up' => walk name_max up' d ws'
            end
          else if Nat.ltb name_max (String.length w) then Failed
          else
            match entry w es with
            | Some n => walk name_max (cur :: up) n ws'
            | None => Absent
            end
      end
  end.

(** The path as a whole is measured first: its text must be shorter than
    [path_max].  A path without anchor is resolved from the working
    directory. *)
Definition locate (name_max path_max : nat) (root : node) (cwd : list string)
    (p : Path) : found :=
  if Nat.leb path_max (String.length (str p)) then Failed
  else if String.eqb (anchor p) "" then walk name_max [] root (cwd ++ parts p)
  else walk name_max [] root (parts p).

Definition resolve (name_max path_max : nat) (root : node) (cwd : list string)
    (p : Path) : option node :=
  match locate name_max path_max root cwd p with
  | Found n => Some n
  | _ => None
  end.

(** [p.exists()]: [True] or [False], or [None] when the probe fails with an
    error that [exists] does not take for an absence and raises again. *)
Definition exists_ (name_max path_max : nat) (root : node) (cwd : list string)
    (p : Path) : option bool :=
  match locate name_max path_max root cwd p with
  | Found _ => Some true
  | Absent => Some false
  | Failed => None
  end.

(** [p.iterdir()]: the children of a directory, [None] when [p] is not a
    directory that can be listed. *)
Definition iterdir (name_max path_max : nat) (root : node) (cwd : list string)
    (p : Path) : option (list Path) :=
  match resolve name_max path_max root cwd p with
  | Some (Dir es) => Some (child p <$> es.*1)
  | _ => None
  end.

End Disk.
Export Disk.

(** ** The world around the module and the module's own state *)

(** What a finished child process leaves behind. *)
Record Completed := mkCompleted { returncode : Z; stderr : list byte }.

Record World := mkWorld {
  platform : string;                (* sys.platform *)
  IPYTHON_INSTALLED : bool;         (* did the import of IPython succeed *)
  ipython_shell : bool;             (* is get_ipython defined *)
  here : Path;                      (* pathlib.Path(__file__).parent *)
  cwd : list string;                (* the working directory *)
  disk : node;                      (* the tree under "/" *)
  shell : string -> Completed;      (* what running a shell command gives *)
  signal_name : Z -> option string; (* signal.Signals *)
  NAME_MAX : nat;                   (* longest name of a directory entry *)
  PATH_MAX : nat                    (* a path must be shorter than this *)
}.

Inductive exn :=
| ValueError (msg : string)
| RuntimeError (msg : string)
| OSError (p : Path)
| NameError (name : string)
| UnicodeDecodeError (object : list byte)
| OtherError (type_name msg : string).

Inductive redirect := Inherit | DEVNULL | PIPE.

(** What the module does to the outside, one constructor per kind of call. *)
Inductive effect :=
| EListdir (p : Path)                          (* the listing behind iterdir *)
| EStat (p : Path)                             (* the probe behind exists *)
| EPopen (command : string) (err : redirect)   (* Popen(command, shell=True, stderr=err): not waited for *)
| ERun (command : string)                      (* run(command, shell=True, check=True, capture_output=True) *)
| EWarn (message : string)                     (* warnings.warn(message) *)
| EPrint (text : string)                       (* print *)
| EDefaultHook (exc : exn).                    (* sys.__excepthook__ *)

(** The value of [sys.excepthook]. *)
Inductive hook := builtin_hook | except_hook_closure.

(** A callback registered with the notebook's event system. *)
Inductive callback := Watcher_post_run_cell.

Record State := mkState {
  THEME : string;
  excepthook : hook;
  registered : list (string * callback);
  trace : list effect
}.

(** The state right after the module is imported. *)
Definition initial : State := mkState "mario" builtin_hook [] [].

(** ** Computations: state and exceptions *)

Inductive result (A : Type) :=
| Ok (a : A)
| Raise (e : exn).
Arguments Ok {A} a.
Arguments Raise {A} e.

Definition M (A : Type) : Type := State -> result A * State.

Definition ret {A} (a : A) : M A := fun st => (Ok a, st).

Definition raise {A} (e : exn) : M A := fun st => (Raise e, st).

Definition bind {A B} (c : M A) (k : A -> M B) : M B :=
  fun st =>
    match c st with
    | (Ok a, st') => k a st'
    | (Raise e, st') => (Raise e, st')
    end.

Notation "x <- c ;; k" := (bind c (fun x => k))
  (at level 100, c at next level, right associativity).
Notation "c ;; k" := (bind c (fun _ => k))
  (at level 100, right associativity).

Definition emit (ev : effect) : M unit :=
  fun st => (Ok tt, mkState (THEME st) (excepthook st) (registered st) (trace st ++ [ev])).

Definition set_THEME (name : string) : M unit :=
  fun st => (Ok tt, mkState name (excepthook st) (registered st) (trace st)).

Definition set_excepthook (h : hook) : M unit :=
  fun st => (Ok tt, mkState (THEME st) h (registered st) (trace st)).

Definition register (event : string) (cb : callback) : M unit :=
  fun st => (Ok tt, mkState (THEME st) (excepthook st) (registered st ++ [(event, cb)]) (trace st)).

(** The effects a computation adds to the trace of [st]. *)
Definition emitted {A} (c : M A) (st : State) : list effect :=
  drop (length (trace st)) (trace (c st).2).

(** ** The module *)

Module Horn.

Section Code.

Variable w : World.

(** [str(e)] for the [CalledProcessError] that [subprocess.run] raises
    on a non-zero return code. *)
Definition str_CalledProcessError (cmd : string) (rc : Z) : string :=
  if (rc <? 0)%Z then
    match signal_name w (- rc) with
    | Some s =>
        "Command '" +:+ cmd +:+ "' died with <Signals." +:+ s +:+ ": "
          +:+ Text.decimal (- rc) +:+ ">."
    | None =>
        "Command '" +:+ cmd +:+ "' died with unknown signal "
          +:+ Text.decimal (- rc) +:+ "."
    end
  else
    "Command '" +:+ cmd +:+ "' returned non-zero exit status "
      +:+ Text.decimal rc +:+ ".".

Definition run (command : string) (silent : bool) : M unit :=
  if silent then
    emit (EPopen command DEVNULL)
  else
    emit (ERun command) ;;
    let e := shell w command in
    if (returncode e =? 0)%Z then ret tt
    else
      (* except subprocess.CalledProcessError as e *)
      match Text.decode (stderr e) with
      | Some text =>
          emit (EWarn (str_CalledProcessError command (returncode e)
                         +:+ " stderr: " +:+ Text.strip text))
      | None => raise (UnicodeDecodeError (stderr e))
      end.

Definition play_wav (path : Path) (silent : option bool) : M unit :=
  let silent := default false silent in
  if String.eqb (platform w) "darwin" then
    run ("afplay " +:+ str path) silent
  else
    raise (RuntimeError ("Unsupported platform (" +:+ platform w +:+ ")")).

Definition themes_dir : Path := joinpath (here w) "themes".

Definition current_theme_dir : M Path :=
  fun st => (Ok (joinpath themes_dir (THEME st)), st).

Definition themes : M (gset string) :=
  emit (EListdir themes_dir) ;;
  match iterdir (NAME_MAX w) (PATH_MAX w) (disk w) (cwd w) themes_dir with
  | Some ps => ret (list_to_set (name <$> ps))
  | None => raise (OSError themes_dir)
  end.

Definition theme (name : option string) : M (option string) :=
  match name with
  | None => fun st => (Ok (Some (THEME st)), st)
  | Some name =>
      known <- themes ;;
      if bool_decide (name ∉ known) then
        raise (ValueError ("Unknown theme (" +:+ name +:+ ")"))
      else
        set_THEME name ;;
        ret None
  end.

(** [path.exists()], with the probe it makes and the error it may raise. *)
Definition path_exists (path : Path) : M bool :=
  emit (EStat path) ;;
  match exists_ (NAME_MAX w) (PATH_MAX w) (disk w) (cwd w) path with
  | Some found => ret found
  | None => raise (OSError path)
  end.

Definition notify (event : string) (silent : bool) : M unit :=
  dir <- current_theme_dir ;;
  let path := joinpath dir (event +:+ ".wav") in
  found <- path_exists path ;;
  if negb found then
    raise (ValueError (str path +:+ " is undefined"))
  else
    play_wav path (Some silent).

Definition success (silent : option bool) : M unit :=
  notify "success" (default true silent).

Definition warning (silent : option bool) : M unit :=
  notify "warning" (default true silent).

Definition error (silent : option bool) : M unit :=
  notify "error" (default true silent).

Definition info (silent : option bool) : M unit :=
  notify "info" (default true silent).

(** The closure that [notify_exceptions] installs. *)
Definition except_hook (exc : exn) : M unit :=
  error (Some true) ;;
  emit (EDefaultHook exc).

(** [Watcher.post_run_cell], with [result.error_in_exec] as a flag. *)
Definition post_run_cell (error_in_exec : bool) : M unit :=
  emit (EPrint "dir(result)") ;;
  if error_in_exec then error (Some true) else ret tt.

Definition notify_exceptions : M unit :=
  set_excepthook except_hook_closure ;;
  if IPYTHON_INSTALLED w then
    if ipython_shell w then
      register "post_run_cell" Watcher_post_run_cell
    else
      raise (NameError "get_ipython")
  else ret tt.

(** What the interpreter does with an exception nobody caught: it calls
    whatever [sys.excepthook] holds.  An exception raised by the hook
    itself is the result of the call. *)
Definition uncaught (exc : exn) : M unit :=
  fun st =>
    match excepthook st with
    | builtin_hook => emit (EDefaultHook exc) st
    | except_hook_closure => except_hook exc st
    end.

End Code.

(** The notebook magic [HornMagics.horn] runs client code through [exec]
    and then calls [success()] or [error()]; it adds nothing to the
    functions above and is left out. *)

(** *** Sessions: the calls a client makes, each in the world of its time *)

Inductive call :=
| call_run (command : string) (silent : bool)
| call_play_wav (path : Path) (silent : option bool)
| call_themes
| call_theme (name : option string)
| call_notify (event : string) (silent : bool)
| call_success (silent : option bool)
| call_warning (silent : option bool)
| call_error (silent : option bool)
| call_info (silent : option bool)
| call_notify_exceptions
| call_post_run_cell (error_in_exec : bool)
| call_uncaught (exc : exn).

Definition is_setter (c : call) : bool :=
  match c with call_theme (Some _) => true | _ => false end.

(** A call's result is dropped here; an exception it raises is taken to
    be handled by the client, which goes on. *)
Definition exec (w : World) (c : call) (st : State) : State :=
  match c with
  | call_run command silent => (run w command silent st).2
  | call_play_wav path silent => (play_wav w path silent st).2
  | call_themes => (themes w st).2
  | call_theme name => (theme w name st).2
  | call_notify event silent => (notify w event silent st).2
  | call_success silent => (success w silent st).2
  | call_warning silent => (warning w silent st).2
  | call_error silent => (error w silent st).2
  | call_info silent => (info w silent st).2
  | call_notify_exceptions => (notify_exceptions w st).2
  | call_post_run_cell b => (post_run_cell w b st).2
  | call_uncaught exc => (uncaught w exc st).2
  end.

Fixpoint session (cs : list (World * call)) (st : State) : State :=
  match cs with
  | [] => st
  | (w, c) :: cs' => session cs' (exec w c st)
  end.

End Horn.
Export Horn.

(** ** Worlds and readings used in the statements below *)

(** The sound file of [event] under the theme [name]. *)
Definition sound_path (w : World) (name event : string) : Path :=
  joinpath (joinpath (themes_dir w) name) (event +:+ ".wav").

(** The state [st] once [evs] have been added to its trace. *)
Definition after (st : State) (evs : list effect) : State :=
  mkState (THEME st) (excepthook st) (registered st) (trace st ++ evs).

(** The commands of the processes spawned by a sequence of effects. *)
Definition commands (evs : list effect) : list string :=
  omap (fun ev => match ev with
                  | EPopen c _ | ERun c => Some c
                  | _ => None
                  end) evs.

Definition is_warning (ev : effect) : bool :=
  match ev with EWarn _ => true | _ => false end.

(** The same world with another behaviour of the spawned processes. *)
Definition with_shell (w : World) (sh : string -> Completed) : World :=
  mkWorld (platform w) (IPYTHON_INSTALLED w) (ipython_shell w) (here w) (cwd w)
          (disk w) sh (signal_name w) (NAME_MAX w) (PATH_MAX w).

(** The names of the directories found under the themes root. *)
Definition theme_directories (w : World) : gset string :=
  match resolve (NAME_MAX w) (PATH_MAX w) (disk w) (cwd w) (themes_dir w) with
  | Some (Dir es) => list_to_set (List.filter (fun e => is_dir e.2) es).*1
  | _ => ∅
  end.

(** An installed hook that, on [exc], spawns the player once and then lets
    the default hook report [exc]. *)
Definition plays_then_reports (w : World) (st : State) (exc : exn) : Prop :=
  exists pre post,
    emitted (uncaught w exc) st = pre ++ EDefaultHook exc :: post
    /\ length (commands pre) = 1
    /\ commands post = [].

(** A computation that leaves the current theme alone. *)
Definition keeps_theme {A : Type} (c : M A) : Prop :=
  forall st, THEME (c st).2 = THEME st.

(** From [st], the computation [c] probes [p] and, when [p] exists, hands
    that very path to [play_wav]; when [p] does not exist it raises the
    [ValueError] of an undefined sound, and when the probe itself fails it
    raises the [OSError] of the probe. *)
Definition resolves_to (w : World) (c : M unit) (st : State)
    (p : Path) (silent : bool) : Prop :=
  c st =
  match exists_ (NAME_MAX w) (PATH_MAX w) (disk w) (cwd w) p with
  | Some true => play_wav w p (Some silent) (after st [EStat p])
  | Some false =>
      (Raise (ValueError (str p +:+ " is undefined")), after st [EStat p])
  | None => (Raise (OSError p), after st [EStat p])
  end.

Definition is_blocking_run (ev : effect) : bool :=
  match ev with ERun _ => true | _ => false end.

(** From [st], the computation [c] plays the sound of [event] without
    waiting: after the probe, the player is spawned detached with its error
    output discarded; nothing the player does reaches the caller, and no
    warning is issued. *)
Definition fire_and_forget (c : World -> M unit) (w : World) (st : State)
    (event : string) : Prop :=
  let path := sound_path w (THEME st) event in
  c w st =
    match exists_ (NAME_MAX w) (PATH_MAX w) (disk w) (cwd w) path with
    | Some true =>
        if String.eqb (platform w) "darwin"
        then (Ok tt, after st [EStat path; EPopen ("afplay " +:+ str path) DEVNULL])
        else (Raise (RuntimeError ("Unsupported platform (" +:+ platform w +:+ ")")),
              after st [EStat path])
    | Some false =>
        (Raise (ValueError (str path +:+ " is undefined")), after st [EStat path])
    | None => (Raise (OSError path), after st [EStat path])
    end
  /\ (forall sh, c (with_shell w sh) st = c w st)
  /\ Forall (fun ev => is_warning ev = false /\ is_blocking_run ev = false)
            (emitted (c w) st).

Module Sample.

Definition sounds : node :=
  Dir [("success.wav", File); ("warning.wav", File);
       ("error.wav", File); ("info.wav", File)].

(** An installed package with two themes and a stray file beside them. *)
Definition tree : node :=
  Dir [("pkg", Dir [("horn.py", File);
                    ("themes", Dir [("mario", sounds);
                                    ("zelda", Dir [("success.wav", File)]);
                                    (".DS_Store", File)])])].

Definition quiet (_ : string) : Completed := mkCompleted 0 [].

(** A player that fails and says why. *)
Definition failing (_ : string) : Completed :=
  mkCompleted 1 (list_byte_of_string "Error: AudioFileOpen failed").

(** A player that fails and writes a byte that is not UTF-8. *)
Definition garbled (_ : string) : Completed := mkCompleted 1 [xff].

Definition no_signal (_ : Z) : option string := None.

Definition mac : World :=
  mkWorld "darwin" false false (mkPath "/" ["pkg"]) [] tree quiet no_signal
          255 1024.

Definition linux : World :=
  mkWorld "linux" false false (mkPath "/" ["pkg"]) [] tree quiet no_signal
          255 4096.

Definition key_error : exn := OtherError "KeyError" "'k'".

(** An event name of 252 letters: with [.wav] it makes a file name of 256
    bytes, one more than a directory entry may have. *)
Definition long_event : string := string_of_list_ascii (repeat "a"%char 252).

End Sample.

(** ** The notebook magic

    [HornMagics.horn(line, cell)] runs client code through [exec] and then
    plays a sound.  The client code is arbitrary: it is given here by what
    it does to the module's state and by the world it leaves behind.  The
    handler catches [Exception]; whether a class outside this module derives
    from it is given by [derives_Exception]. *)

Module Magics.

Section Magic.

Variable derives_Exception : string -> bool.
Variable client : string -> State -> result unit * State * World.

Definition is_Exception (e : exn) : bool :=
  match e with
  | OtherError type_name _ => derives_Exception type_name
  | _ => true
  end.

(** The inner function [run(code)]: its body executes [line]. *)
Definition horn_run (line code : string) : M unit :=
  fun st =>
    let '(r, st1, w1) := client line st in
    let tried :=
      match r with
      | Ok _ => success w1 None st1
      | Raise e => (Raise e, st1)
      end in
    match tried with
    | (Raise e, st2) =>
        (* except Exception as e *)
        if is_Exception e then error w1 None st2 else (Raise e, st2)
    | (Ok _, st2) => (Ok tt, st2)
    end.

Definition horn (line : string) (cell : option string) : M unit :=
  match cell with
  | None => horn_run line line
  | Some cell => horn_run line cell
  end.

End Magic.

End Magics.

(** ** Further readings *)

(** A name without a slash. *)
Fixpoint plain (s : string) : bool :=
  match s with
  | EmptyString => true
  | String a s' => negb (Ascii.eqb a "/") && plain s'
  end.

(** Error output made of ASCII bytes only. *)
Definition ascii_only (bs : list byte) : Prop :=
  Forall (fun b => (Byte.to_N b < 128)%N) bs.

Definition is_notify_exceptions (c : call) : bool :=
  match c with call_notify_exceptions => true | _ => false end.

(** In the session [cs], the setter was called on [name] in a world whose
    themes root listed [name]. *)
Definition validated (cs : list (World * call)) (name : string) : Prop :=
  exists w es,
    (w, call_theme (Some name)) ∈ cs
    /\ resolve (NAME_MAX w) (PATH_MAX w) (disk w) (cwd w) (themes_dir w) = Some (Dir es)
    /\ name ∈ es.*1.

(** A computation that leaves [sys.excepthook] alone. *)
Definition keeps_hook {A : Type} (c : M A) : Prop :=
  forall st, excepthook (c st).2 = excepthook st.

Module Setup.

(** A package whose themes directory is missing. *)
Definition bare : World :=
  mkWorld "darwin" false false (mkPath "/" ["pkg"]) []
          (Dir [("pkg", Dir [("horn.py", File)])]) Sample.quiet Sample.no_signal
          255 1024.

(** IPython can be imported, but the program is a plain script. *)
Definition script : World :=
  mkWorld "darwin" true false (mkPath "/" ["pkg"]) [] Sample.tree
          Sample.quiet Sample.no_signal 255 1024.

(** Inside a notebook. *)
Definition notebook : World :=
  mkWorld "darwin" true true (mkPath "/" ["pkg"]) [] Sample.tree
          Sample.quiet Sample.no_signal 255 1024.

(** Client code that does nothing and leaves the world [w]. *)
Definition idle (w : World) (_ : string) (st : State) : result unit * State * World :=
  (Ok tt, st, w).

(** Client code that raises. *)
Definition faulty (w : World) (_ : string) (st : State) : result unit * State * World :=
  (Raise Sample.key_error, st, w).

Definition all_exceptions (_ : string) : bool := true.

End Setup.

(** * Properties *)

(** ** The monad and the trace *)

Section Trace.

Context {A : Type}.

Lemma emitted_after (c : M A) (st : State) (r : result A) (evs : list effect) :
  c st = (r, after st evs) -> emitted c st = evs.
Proof.
  intros H. unfold emitted. rewrite H. simpl.
  by rewrite drop_app_length.
Qed.

Lemma after_nil (st : State) : after st [] = st.
Proof. destruct st; unfold after; simpl. by rewrite app_nil_r. Qed.

Lemma after_after (st : State) (xs ys : list effect) :
  after (after st xs) ys = after st (xs ++ ys).
Proof. unfold after; simpl. by rewrite app_assoc. Qed.

End Trace.

Lemma Ok_inj {A : Type} (a b : A) : Ok a = Ok b -> a = b.
Proof. by intros [= ->]. Qed.

Lemma emit_after (ev : effect) (st : State) : emit ev st = (Ok tt, after st [ev]).
Proof. reflexivity. Qed.

(** ** Paths *)

Lemma name_child (p : Path) (e : string) : name (child p e) = e.
Proof. unfold name, child; simpl. apply last_last. Qed.

Lemma names_of_children (p : Path) (es : list string) :
  name <$> (child p <$> es) = es.
Proof.
  induction es as [|e es IH]; [done|].
  rewrite !fmap_cons, name_child. by f_equal.
Qed.

Lemma themes_dir_parts (w : World) :
  themes_dir w = mkPath (anchor (here w)) (parts (here w) ++ ["themes"]).
Proof. reflexivity. Qed.

(** The four sound files of the theme ["mario"]. *)
Lemma mario_sound_path (w : World) (event : string) :
  event ∈ ["success"; "warning"; "error"; "info"] ->
  sound_path w "mario" event
  = mkPath (anchor (here w)) (parts (here w) ++ ["themes"; "mario"; event +:+ ".wav"]).
Proof.
  intros Hev. unfold sound_path.
  repeat (apply elem_of_cons in Hev as [-> | Hev]);
    [ | | | | by apply elem_of_nil in Hev ];
    cbv [joinpath parse themes_dir]; simpl; by rewrite <- !app_assoc.
Qed.

Lemma startswith_slash_wav (event : string) :
  Text.startswith "/" event = true ->
  Text.startswith "/" (event +:+ ".wav") = true.
Proof.
  destruct event as [|a e]; [done|].
  change (String a e +:+ ".wav") with (String a (e +:+ ".wav")).
  unfold Text.startswith. cbn -[Ascii.ascii_dec].
  destruct (Ascii.ascii_dec "/" a); [|done].
  intros _. by destruct (e +:+ ".wav").
Qed.

Lemma anchored_sound_path (w : World) (theme event : string) :
  Text.startswith "/" event = true ->
  sound_path w theme event = parse (event +:+ ".wav").
Proof.
  intros Hev. apply startswith_slash_wav in Hev.
  unfold sound_path, joinpath at 1. cbv zeta.
  assert (String.eqb (anchor (parse (event +:+ ".wav"))) "" = false) as ->; [|done].
  unfold parse. simpl anchor. rewrite Hev.
  by destruct (Text.startswith "///" (event +:+ ".wav")),
              (Text.startswith "//" (event +:+ ".wav")).
Qed.

(** ** What each function does, step by step *)

Lemma themes_listing (w : World) (st : State) :
  themes w st =
  (match resolve (NAME_MAX w) (PATH_MAX w) (disk w) (cwd w) (themes_dir w) with
   | Some (Dir es) => Ok (list_to_set es.*1)
   | _ => Raise (OSError (themes_dir w))
   end,
   after st [EListdir (themes_dir w)]).
Proof.
  unfold themes, bind. rewrite emit_after. unfold iterdir.
  destruct (resolve (NAME_MAX w) (PATH_MAX w) (disk w) (cwd w) (themes_dir w)) as [[|es]|]; try reflexivity.
  unfold ret. by rewrite names_of_children.
Qed.

Lemma theme_setter (w : World) (st : State) (name : string) :
  theme w (Some name) st =
  match themes w st with
  | (Ok known, st') =>
      if bool_decide (name ∉ known)
      then (Raise (ValueError ("Unknown theme (" +:+ name +:+ ")")), st')
      else (Ok None, mkState name (excepthook st') (registered st') (trace st'))
  | (Raise e, st') => (Raise e, st')
  end.
Proof.
  unfold theme, bind.
  destruct (themes w st) as [[known|e] st']; [|done].
  by destruct (bool_decide (name ∉ known)).
Qed.

Lemma notify_steps (w : World) (event : string) (silent : bool) (st : State) :
  notify w event silent st =
  let path := sound_path w (THEME st) event in
  match exists_ (NAME_MAX w) (PATH_MAX w) (disk w) (cwd w) path with
  | Some true => play_wav w path (Some silent) (after st [EStat path])
  | Some false =>
      (Raise (ValueError (str path +:+ " is undefined")), after st [EStat path])
  | None => (Raise (OSError path), after st [EStat path])
  end.
Proof.
  unfold notify, path_exists, bind, current_theme_dir, sound_path.
  rewrite emit_after.
  by destruct (exists_ _ _ _ _ _) as [[|]|].
Qed.

Lemma play_wav_popen (w : World) (path : Path) (st : State) :
  platform w = "darwin" ->
  play_wav w path (Some true) st
  = (Ok tt, after st [EPopen ("afplay " +:+ str path) DEVNULL]).
Proof. intros Hp. unfold play_wav. by rewrite Hp. Qed.

Lemma play_wav_raises (w : World) (path : Path) (silent : option bool) (st : State) :
  String.eqb (platform w) "darwin" = false ->
  play_wav w path silent st
  = (Raise (RuntimeError ("Unsupported platform (" +:+ platform w +:+ ")")), st).
Proof. intros Hp. unfold play_wav. by rewrite Hp. Qed.

(** A silent notification: the probe, then at most the detached player. *)
Lemma notify_silent (w : World) (event : string) (st : State) :
  notify w event true st =
  let path := sound_path w (THEME st) event in
  match exists_ (NAME_MAX w) (PATH_MAX w) (disk w) (cwd w) path with
  | Some true =>
      if String.eqb (platform w) "darwin"
      then (Ok tt, after st [EStat path; EPopen ("afplay " +:+ str path) DEVNULL])
      else (Raise (RuntimeError ("Unsupported platform (" +:+ platform w +:+ ")")),
            after st [EStat path])
  | Some false =>
      (Raise (ValueError (str path +:+ " is undefined")), after st [EStat path])
  | None => (Raise (OSError path), after st [EStat path])
  end.
Proof.
  rewrite notify_steps. cbv zeta.
  destruct (exists_ _ _ _ _ _) as [[|]|]; [|done|done].
  destruct (String.eqb (platform w) "darwin") eqn:Hp.
  - apply String.eqb_eq in Hp. rewrite play_wav_popen by done.
    by rewrite after_after.
  - by rewrite play_wav_raises.
Qed.

(** The blocking player, according to how the child process ends. *)
Lemma run_blocking (w : World) (command : string) (st : State) :
  run w command false st =
  let e := shell w command in
  if (returncode e =? 0)%Z then (Ok tt, after st [ERun command])
  else match Text.decode (stderr e) with
       | Some text =>
           (Ok tt, after st [ERun command;
                             EWarn (str_CalledProcessError w command (returncode e)
                                      +:+ " stderr: " +:+ Text.strip text)])
       | None => (Raise (UnicodeDecodeError (stderr e)), after st [ERun command])
       end.
Proof.
  unfold run, bind. rewrite emit_after. cbv zeta.
  destruct (returncode (shell w command) =? 0)%Z; [done|].
  destruct (Text.decode _); [|done].
  by rewrite emit_after, after_after.
Qed.

(** ** The current theme is touched by the setter alone *)

Lemma keeps_ret {A : Type} (a : A) : keeps_theme (ret a).
Proof. by intros st. Qed.

Lemma keeps_raise {A : Type} (e : exn) : keeps_theme (@raise A e).
Proof. by intros st. Qed.

Lemma keeps_emit (ev : effect) : keeps_theme (emit ev).
Proof. by intros st. Qed.

Lemma keeps_bind {A B : Type} (c : M A) (k : A -> M B) :
  keeps_theme c -> (forall a, keeps_theme (k a)) -> keeps_theme (bind c k).
Proof.
  intros Hc Hk st. unfold bind. specialize (Hc st).
  destruct (c st) as [[a|e] st']; simpl in *; [|done].
  by rewrite Hk.
Qed.

Create HintDb keeps.
#[local] Hint Resolve keeps_ret keeps_raise keeps_emit : keeps.

Ltac keeps :=
  repeat first
    [ progress auto with keeps
    | apply keeps_bind; [|intros ?]
    | match goal with
      | |- keeps_theme (if ?b then _ else _) => destruct b
      | |- keeps_theme (match ?x with _ => _ end) => destruct x
      end ].

Lemma keeps_run (w : World) (command : string) (silent : bool) :
  keeps_theme (run w command silent).
Proof. unfold run. keeps. Qed.
#[local] Hint Resolve keeps_run : keeps.

Lemma keeps_play_wav (w : World) (path : Path) (silent : option bool) :
  keeps_theme (play_wav w path silent).
Proof. unfold play_wav. cbv zeta. keeps. Qed.
#[local] Hint Resolve keeps_play_wav : keeps.

Lemma keeps_themes (w : World) : keeps_theme (themes w).
Proof. unfold themes. keeps. Qed.

Lemma keeps_notify (w : World) (event : string) (silent : bool) :
  keeps_theme (notify w event silent).
Proof.
  unfold notify. apply keeps_bind; [by intros st|intros dir].
  cbv zeta. keeps.
Qed.
#[local] Hint Resolve keeps_notify : keeps.

Lemma keeps_except_hook (w : World) (exc : exn) : keeps_theme (except_hook w exc).
Proof. unfold except_hook, error. keeps. Qed.

Lemma keeps_post_run_cell (w : World) (b : bool) : keeps_theme (post_run_cell w b).
Proof. unfold post_run_cell, error. keeps. Qed.

Lemma keeps_notify_exceptions (w : World) : keeps_theme (notify_exceptions w).
Proof.
  unfold notify_exceptions. apply keeps_bind; [by intros st|intros _].
  keeps. by intros st.
Qed.

Lemma keeps_uncaught (w : World) (exc : exn) : keeps_theme (uncaught w exc).
Proof.
  intros st. unfold uncaught. destruct (excepthook st); [done|].
  apply keeps_except_hook.
Qed.

Lemma exec_keeps_theme (w : World) (c : call) (st : State) :
  is_setter c = false -> THEME (exec w c st) = THEME st.
Proof.
  destruct c as [| | |[name|]| | | | | | | |]; simpl; intros Hc; try done.
  - apply keeps_run.
  - apply keeps_play_wav.
  - apply keeps_themes.
  - apply keeps_notify.
  - apply keeps_notify.
  - apply keeps_notify.
  - apply keeps_notify.
  - apply keeps_notify.
  - apply keeps_notify_exceptions.
  - apply keeps_post_run_cell.
  - apply keeps_uncaught.
Qed.

Lemma session_keeps_theme (cs : list (World * call)) (st : State) :
  Forall (fun wc => is_setter wc.2 = false) cs ->
  THEME (session cs st) = THEME st.
Proof.
  intros Hcs. revert st.
  induction Hcs as [|[w c] cs Hc _ IH]; intros st; simpl; [done|].
  rewrite IH. by apply exec_keeps_theme.
Qed.

(** ** The themes and the current theme *)

Lemma sample_themes_root :
  resolve (NAME_MAX Sample.mac) (PATH_MAX Sample.mac) (disk Sample.mac) (cwd Sample.mac) (themes_dir Sample.mac)
  = Some (Dir [("mario", Sample.sounds);
               ("zelda", Dir [("success.wav", File)]);
               (".DS_Store", File)]).
Proof. reflexivity. Qed.

(** C1. Whatever the themes root holds, when [themes()] returns a set and
    [name] is not one of its members, [theme(name)] raises the [ValueError]
    for an unknown theme. *)
Theorem theme_unknown_raises (w : World) (st st' : State)
    (name : string) (known : gset string) :
  themes w st = (Ok known, st') ->
  name ∉ known ->
  theme w (Some name) st
  = (Raise (ValueError ("Unknown theme (" +:+ name +:+ ")")), st').
Proof.
  intros Hlist Hname. rewrite theme_setter, Hlist.
  by rewrite bool_decide_eq_true_2.
Qed.

Lemma theme_unknown_raises_witness :
  theme Sample.mac (Some "luigi") initial
  = (Raise (ValueError "Unknown theme (luigi)"),
     after initial [EListdir (themes_dir Sample.mac)]).
Proof.
  apply (theme_unknown_raises Sample.mac initial _ "luigi"
           (list_to_set ["mario"; "zelda"; ".DS_Store"])).
  - rewrite themes_listing. by rewrite sample_themes_root.
  - rewrite elem_of_list_to_set. intros Hin.
    repeat (apply elem_of_cons in Hin as [Hin | Hin]; [discriminate Hin|]).
    by apply elem_of_nil in Hin.
Defined.

(** C2, as the code has it. When the themes root is a directory that can be
    listed, [themes()] returns the names of all its entries, whatever their
    kind: every directory is among them, and so is every other entry. *)
Theorem themes_lists_every_entry (w : World) (st : State)
    (es : list (string * node)) :
  resolve (NAME_MAX w) (PATH_MAX w) (disk w) (cwd w) (themes_dir w) = Some (Dir es) ->
  exists known,
    themes w st = (Ok known, after st [EListdir (themes_dir w)])
    /\ (forall n, n ∈ known <-> exists x, (n, x) ∈ es)
    /\ theme_directories w ⊆ known.
Proof.
  intros Hroot. exists (list_to_set es.*1). split; [|split].
  - by rewrite themes_listing, Hroot.
  - intros n. rewrite elem_of_list_to_set, list_elem_of_fmap. split.
    + intros [[n' x] [-> Hin]]. by exists x.
    + intros [x Hin]. by exists (n, x).
  - unfold theme_directories. rewrite Hroot.
    intros n. rewrite !elem_of_list_to_set, !list_elem_of_fmap.
    intros [e [-> Hin]]. exists e. split; [done|].
    apply list_elem_of_In in Hin. apply filter_In in Hin as [Hin _].
    by apply list_elem_of_In.
Qed.

Lemma themes_lists_every_entry_witness :
  exists known,
    themes Sample.mac initial
    = (Ok known, after initial [EListdir (themes_dir Sample.mac)])
    /\ (forall n, n ∈ known <->
                  exists x, (n, x) ∈ [("mario", Sample.sounds);
                                      ("zelda", Dir [("success.wav", File)]);
                                      (".DS_Store", File)])
    /\ theme_directories Sample.mac ⊆ known.
Proof.
  apply (themes_lists_every_entry Sample.mac initial). reflexivity.
Defined.

(** C2, as stated, fails: beside the directories [mario] and [zelda] the
    root holds the file [.DS_Store], and [themes()] returns its name too,
    so the result is not the set of directory names. *)
Lemma themes_not_only_directories :
  (themes Sample.mac initial).1 ≠ Ok (theme_directories Sample.mac).
Proof.
  intros Heq.
  rewrite themes_listing, sample_themes_root in Heq.
  unfold theme_directories in Heq. rewrite sample_themes_root in Heq.
  cbn [fst] in Heq. apply Ok_inj in Heq.
  assert (".DS_Store" ∈ (list_to_set ["mario"; "zelda"; ".DS_Store"] : gset string))
    as Hin.
  { apply elem_of_list_to_set.
    do 2 apply list_elem_of_further. apply list_elem_of_here. }
  change (list_to_set ["mario"; "zelda"; ".DS_Store"])
    with (list_to_set (C := gset string)
            [("mario", Sample.sounds); ("zelda", Dir [("success.wav", File)]);
             (".DS_Store", File)].*1) in Hin.
  rewrite Heq in Hin. apply elem_of_list_to_set in Hin.
  change (".DS_Store" ∈ ["mario"; "zelda"]) in Hin.
  repeat (apply elem_of_cons in Hin as [Hin | Hin]; [discriminate Hin|]).
  by apply elem_of_nil in Hin.
Qed.

(** C10. When [theme(name)] raises, whatever the exception, the current
    theme is the one from before the call: the assignment comes after the
    membership test. *)
Theorem theme_failure_keeps_theme (w : World) (st st' : State)
    (name : string) (e : exn) :
  theme w (Some name) st = (Raise e, st') ->
  THEME st' = THEME st.
Proof.
  rewrite theme_setter. pose proof (keeps_themes w st) as Hk.
  destruct (themes w st) as [[known|e'] st1]; simpl in Hk.
  - destruct (bool_decide (name ∉ known)); [|discriminate].
    intros [= _ <-]. done.
  - intros [= _ <-]. done.
Qed.

Lemma theme_failure_keeps_theme_witness :
  theme Sample.mac (Some "luigi") initial
  = (Raise (ValueError "Unknown theme (luigi)"),
     after initial [EListdir (themes_dir Sample.mac)])
  /\ THEME (after initial [EListdir (themes_dir Sample.mac)]) = THEME initial.
Proof.
  assert (theme Sample.mac (Some "luigi") initial
          = (Raise (ValueError "Unknown theme (luigi)"),
             after initial [EListdir (themes_dir Sample.mac)])) as Hraise
    by (vm_compute; reflexivity).
  split; [exact Hraise|].
  exact (theme_failure_keeps_theme Sample.mac initial _ "luigi" _ Hraise).
Defined.

(** C7. As long as no call has set a theme, the getter returns ["mario"];
    and once [theme(name)] has returned normally, the getter returns
    [name]. *)
Theorem theme_round_trip :
  (forall (cs : list (World * call)) (w : World),
      Forall (fun wc => is_setter wc.2 = false) cs ->
      theme w None (session cs initial)
      = (Ok (Some "mario"), session cs initial))
  /\ (forall (w w' : World) (st st' : State) (name : string) (r : option string),
         theme w (Some name) st = (Ok r, st') ->
         theme w' None st' = (Ok (Some name), st')).
Proof.
  split.
  - intros cs w Hcs. simpl. by rewrite session_keeps_theme.
  - intros w w' st st' name r. rewrite theme_setter.
    destruct (themes w st) as [[known|e'] st1]; [|discriminate].
    destruct (bool_decide (name ∉ known)); [discriminate|].
    intros [= _ <-]. reflexivity.
Qed.

Lemma theme_round_trip_witness :
  theme Sample.linux None
    (session [(Sample.mac, call_success None); (Sample.mac, call_themes);
              (Sample.linux, call_uncaught Sample.key_error)] initial)
  = (Ok (Some "mario"),
     session [(Sample.mac, call_success None); (Sample.mac, call_themes);
              (Sample.linux, call_uncaught Sample.key_error)] initial)
  /\ theme Sample.linux None (theme Sample.mac (Some "zelda") initial).2
     = (Ok (Some "zelda"), (theme Sample.mac (Some "zelda") initial).2).
Proof.
  split.
  - apply (proj1 theme_round_trip). repeat constructor.
  - apply (proj2 theme_round_trip Sample.mac Sample.linux initial _ "zelda" None).
    vm_compute. reflexivity.
Defined.

(** ** Playing a sound *)

(** C3, as the code has it. [notify(event, silent)] probes the path made by
    joining the current theme directory with [<event>.wav], which for an
    event that starts with a slash is the absolute path [<event>.wav].  When
    the probe itself fails, its [OSError] leaves the call; when the path does
    not exist the call raises the [ValueError] of an undefined sound; when it
    exists the call is the call of [play_wav] on that very path. *)
Theorem notify_probes_then_plays (w : World) (st : State)
    (event : string) (silent : bool) :
  (exists_ (NAME_MAX w) (PATH_MAX w) (disk w) (cwd w) (sound_path w (THEME st) event) = None ->
   notify w event silent st
   = (Raise (OSError (sound_path w (THEME st) event)),
      after st [EStat (sound_path w (THEME st) event)]))
  /\ (exists_ (NAME_MAX w) (PATH_MAX w) (disk w) (cwd w) (sound_path w (THEME st) event) = Some false ->
      notify w event silent st
      = (Raise (ValueError (str (sound_path w (THEME st) event) +:+ " is undefined")),
         after st [EStat (sound_path w (THEME st) event)]))
  /\ (exists_ (NAME_MAX w) (PATH_MAX w) (disk w) (cwd w) (sound_path w (THEME st) event) = Some true ->
      notify w event silent st
      = play_wav w (sound_path w (THEME st) event) (Some silent)
          (after st [EStat (sound_path w (THEME st) event)]))
  /\ (Text.startswith "/" event = true ->
      sound_path w (THEME st) event = parse (event +:+ ".wav")).
Proof.
  rewrite notify_steps. cbv zeta.
  split; [|split; [|split]]; try (intros Hex; by rewrite Hex).
  apply anchored_sound_path.
Qed.

Lemma notify_probes_then_plays_witness :
  notify Sample.mac Sample.long_event false initial
  = (Raise (OSError (sound_path Sample.mac "mario" Sample.long_event)),
     after initial [EStat (sound_path Sample.mac "mario" Sample.long_event)])
  /\ notify Sample.mac "fanfare" false initial
     = (Raise (ValueError "/pkg/themes/mario/fanfare.wav is undefined"),
        after initial [EStat (mkPath "/" ["pkg"; "themes"; "mario"; "fanfare.wav"])])
  /\ notify Sample.mac "info" false initial
     = play_wav Sample.mac (mkPath "/" ["pkg"; "themes"; "mario"; "info.wav"])
         (Some false)
         (after initial [EStat (mkPath "/" ["pkg"; "themes"; "mario"; "info.wav"])])
  /\ sound_path Sample.mac "mario" "/tmp/beep" = mkPath "/" ["tmp"; "beep.wav"].
Proof.
  pose proof (notify_probes_then_plays Sample.mac initial Sample.long_event false)
    as (Hfailed & _).
  pose proof (notify_probes_then_plays Sample.mac initial "fanfare" false)
    as (_ & Habsent & _).
  pose proof (notify_probes_then_plays Sample.mac initial "info" false)
    as (_ & _ & Hpresent & _).
  pose proof (notify_probes_then_plays Sample.mac initial "/tmp/beep" false)
    as (_ & _ & _ & Hanchored).
  split; [|split; [|split]].
  - apply Hfailed. vm_compute. reflexivity.
  - apply Habsent. vm_compute. reflexivity.
  - apply Hpresent. vm_compute. reflexivity.
  - apply Hanchored. reflexivity.
Defined.

(** C3, as stated, fails: for an event name of 252 letters the sound file
    does not exist, yet the call does not raise [ValueError]: the probe
    fails on the name, which is too long, and its [OSError] leaves the
    call. *)
Lemma notify_name_too_long :
  resolve (NAME_MAX Sample.mac) (PATH_MAX Sample.mac) (disk Sample.mac)
          (cwd Sample.mac) (sound_path Sample.mac "mario" Sample.long_event) = None
  /\ forall silent msg,
       (notify Sample.mac Sample.long_event silent initial).1 ≠ Raise (ValueError msg).
Proof.
  split; [by vm_compute|].
  intros silent msg. rewrite notify_steps. cbv zeta.
  assert (exists_ (NAME_MAX Sample.mac) (PATH_MAX Sample.mac) (disk Sample.mac)
            (cwd Sample.mac) (sound_path Sample.mac (THEME initial) Sample.long_event)
          = None) as -> by (by vm_compute).
  discriminate.
Qed.

(** C4. On a platform other than [darwin], [play_wav] raises the
    [RuntimeError] of an unsupported platform and does nothing else: the
    state is the one it was given, so no process has been spawned. *)
Theorem play_wav_unsupported (w : World) (st : State)
    (path : Path) (silent : option bool) :
  platform w ≠ "darwin" ->
  play_wav w path silent st
  = (Raise (RuntimeError ("Unsupported platform (" +:+ platform w +:+ ")")), st)
  /\ emitted (play_wav w path silent) st = [].
Proof.
  intros Hp. apply String.eqb_neq in Hp.
  pose proof (play_wav_raises w path silent st Hp) as Hraise.
  split; [exact Hraise|].
  apply (emitted_after _ _ (Raise (RuntimeError
           ("Unsupported platform (" +:+ platform w +:+ ")")))).
  by rewrite after_nil.
Qed.

Lemma play_wav_unsupported_witness :
  platform Sample.linux ≠ "darwin"
  /\ play_wav Sample.linux (mkPath "/" ["tmp"; "a.wav"]) (Some true) initial
     = (Raise (RuntimeError "Unsupported platform (linux)"), initial)
  /\ emitted (play_wav Sample.linux (mkPath "/" ["tmp"; "a.wav"]) (Some true)) initial
     = [].
Proof.
  assert (platform Sample.linux ≠ "darwin") as Hp by (vm_compute; discriminate).
  split; [exact Hp|].
  exact (play_wav_unsupported Sample.linux initial
           (mkPath "/" ["tmp"; "a.wav"]) (Some true) Hp).
Defined.

(** The blocking player whose child fails with decodable error output:
    one warning, built from that output, and a normal return. *)
Lemma run_blocking_warns (w : World) (st : State) (command text : string) :
  returncode (shell w command) ≠ 0%Z ->
  Text.decode (stderr (shell w command)) = Some text ->
  run w command false st
  = (Ok tt,
     after st [ERun command;
               EWarn (str_CalledProcessError w command (returncode (shell w command))
                        +:+ " stderr: " +:+ Text.strip text)]).
Proof.
  intros Hrc Hdec. rewrite run_blocking. cbv zeta.
  apply Z.eqb_neq in Hrc. by rewrite Hrc, Hdec.
Qed.

(** The blocking player whose child fails with error output that is not
    UTF-8: the handler's own [decode] raises, and no warning is issued. *)
Lemma run_blocking_undecodable (w : World) (st : State) (command : string) :
  returncode (shell w command) ≠ 0%Z ->
  Text.decode (stderr (shell w command)) = None ->
  run w command false st
  = (Raise (UnicodeDecodeError (stderr (shell w command))), after st [ERun command]).
Proof.
  intros Hrc Hdec. rewrite run_blocking. cbv zeta.
  apply Z.eqb_neq in Hrc. by rewrite Hrc, Hdec.
Qed.

Example run_blocking_failing_player :
  run (with_shell Sample.mac Sample.failing)
      "afplay /pkg/themes/mario/error.wav" false initial
  = (Ok tt,
     after initial
       [ERun "afplay /pkg/themes/mario/error.wav";
        EWarn ("Command 'afplay /pkg/themes/mario/error.wav' returned non-zero "
                 +:+ "exit status 1. stderr: Error: AudioFileOpen failed")]).
Proof. reflexivity. Qed.

(** C5, where the code departs from it. The player exits with status 1
    after writing the single byte 0xFF to its error output; the blocking
    [run] then raises [UnicodeDecodeError] out of its exception handler
    and issues no warning. *)
Theorem run_blocking_garbled_stderr :
  run (with_shell Sample.mac Sample.garbled)
      "afplay /pkg/themes/mario/error.wav" false initial
  = (Raise (UnicodeDecodeError [xff]),
     after initial [ERun "afplay /pkg/themes/mario/error.wav"]).
Proof. reflexivity. Qed.

(** ** The four wrappers *)

Lemma notify_resolves (w : World) (st : State) (event : string) (silent : bool) :
  resolves_to w (notify w event silent) st (sound_path w (THEME st) event) silent.
Proof. unfold resolves_to. by rewrite notify_steps. Qed.

(** C6. Under the theme ["mario"], each wrapper resolves its sound to the
    file of its own name in [themes/mario] beside the module: it probes that
    path and hands it to [play_wav]. *)
Theorem wrappers_resolve_mario (w : World) (st : State) (silent : option bool) :
  THEME st = "mario" ->
  let file name :=
    mkPath (anchor (here w)) (parts (here w) ++ ["themes"; "mario"; name]) in
  resolves_to w (success w silent) st (file "success.wav") (default true silent)
  /\ resolves_to w (warning w silent) st (file "warning.wav") (default true silent)
  /\ resolves_to w (error w silent) st (file "error.wav") (default true silent)
  /\ resolves_to w (info w silent) st (file "info.wav") (default true silent).
Proof.
  intros Hmario file. unfold success, warning, error, info.
  pose proof (fun event => notify_resolves w st event (default true silent)) as Hres.
  rewrite Hmario in Hres.
  repeat split.
  - specialize (Hres "success"). rewrite mario_sound_path in Hres; [done|].
    apply list_elem_of_here.
  - specialize (Hres "warning"). rewrite mario_sound_path in Hres; [done|].
    apply list_elem_of_further, list_elem_of_here.
  - specialize (Hres "error"). rewrite mario_sound_path in Hres; [done|].
    do 2 apply list_elem_of_further. apply list_elem_of_here.
  - specialize (Hres "info"). rewrite mario_sound_path in Hres; [done|].
    do 3 apply list_elem_of_further. apply list_elem_of_here.
Qed.

Lemma wrappers_resolve_mario_witness :
  THEME initial = "mario"
  /\ resolves_to Sample.mac (success Sample.mac None) initial
       (mkPath "/" ["pkg"; "themes"; "mario"; "success.wav"]) true
  /\ resolves_to Sample.mac (warning Sample.mac None) initial
       (mkPath "/" ["pkg"; "themes"; "mario"; "warning.wav"]) true
  /\ resolves_to Sample.mac (error Sample.mac None) initial
       (mkPath "/" ["pkg"; "themes"; "mario"; "error.wav"]) true
  /\ resolves_to Sample.mac (info Sample.mac None) initial
       (mkPath "/" ["pkg"; "themes"; "mario"; "info.wav"]) true.
Proof.
  split; [reflexivity|].
  exact (wrappers_resolve_mario Sample.mac initial None eq_refl).
Defined.

Lemma with_shell_notify_silent (w : World) (sh : string -> Completed)
    (event : string) (st : State) :
  notify (with_shell w sh) event true st = notify w event true st.
Proof. by rewrite !notify_silent. Qed.

Lemma notify_silent_fire_and_forget (w : World) (st : State) (event : string) :
  fire_and_forget (fun w => notify w event true) w st event.
Proof.
  unfold fire_and_forget. cbv zeta. split; [|split].
  - by rewrite notify_silent.
  - intros sh. apply with_shell_notify_silent.
  - pose proof (notify_silent w event st) as Hn. cbv zeta in Hn.
    destruct (exists_ _ _ _ _ _) as [[|]|]; [destruct (String.eqb _ _)| |];
      rewrite (emitted_after _ _ _ _ Hn); by repeat constructor.
Qed.

(** C9. Called without argument, each wrapper plays without waiting: after
    the probe of its sound file, the player is spawned by [Popen] with its
    error output sent to [DEVNULL]; the outcome does not depend on what the
    player does, and the effects hold no warning and no blocking run. *)
Theorem wrappers_default_detached (w : World) (st : State) :
  fire_and_forget (fun w => success w None) w st "success"
  /\ fire_and_forget (fun w => warning w None) w st "warning"
  /\ fire_and_forget (fun w => error w None) w st "error"
  /\ fire_and_forget (fun w => info w None) w st "info".
Proof.
  repeat split; apply notify_silent_fire_and_forget.
Qed.

(** ** The exception hook *)

Lemma notify_exceptions_installs (w : World) (st : State) :
  excepthook (notify_exceptions w st).2 = except_hook_closure
  /\ THEME (notify_exceptions w st).2 = THEME st
  /\ trace (notify_exceptions w st).2 = trace st.
Proof.
  unfold notify_exceptions, bind, set_excepthook, register, raise, ret.
  destruct (IPYTHON_INSTALLED w); [destruct (ipython_shell w)|]; done.
Qed.

Lemma except_hook_steps (w : World) (exc : exn) (st : State) :
  except_hook w exc st =
  let path := sound_path w (THEME st) "error" in
  match exists_ (NAME_MAX w) (PATH_MAX w) (disk w) (cwd w) path with
  | Some true =>
      if String.eqb (platform w) "darwin"
      then (Ok tt, after st [EStat path; EPopen ("afplay " +:+ str path) DEVNULL;
                             EDefaultHook exc])
      else (Raise (RuntimeError ("Unsupported platform (" +:+ platform w +:+ ")")),
            after st [EStat path])
  | Some false =>
      (Raise (ValueError (str path +:+ " is undefined")), after st [EStat path])
  | None => (Raise (OSError path), after st [EStat path])
  end.
Proof.
  unfold except_hook, error, bind. simpl default. rewrite notify_silent. cbv zeta.
  destruct (exists_ _ _ _ _ _) as [[|]|]; [|done|done].
  destruct (String.eqb _ _); [|done].
  by rewrite emit_after, after_after.
Qed.

(** C8, as the code has it. After [notify_exceptions()], the hook in place
    is the module's own; on an uncaught exception it first calls
    [error(silent=True)], once. When the error sound exists and the platform
    is [darwin], one player has been spawned and the default hook then
    reports the same exception; otherwise the call raises, the hook ends
    there, and the default hook is not run. *)
Theorem hook_plays_then_reports (w : World) (st : State) (exc : exn) :
  let st1 := (notify_exceptions w st).2 in
  let path := sound_path w (THEME st) "error" in
  excepthook st1 = except_hook_closure
  /\ uncaught w exc st1 =
       match exists_ (NAME_MAX w) (PATH_MAX w) (disk w) (cwd w) path with
       | Some true =>
           if String.eqb (platform w) "darwin"
           then (Ok tt, after st1 [EStat path; EPopen ("afplay " +:+ str path) DEVNULL;
                                   EDefaultHook exc])
           else (Raise (RuntimeError ("Unsupported platform (" +:+ platform w +:+ ")")),
                 after st1 [EStat path])
       | Some false =>
           (Raise (ValueError (str path +:+ " is undefined")), after st1 [EStat path])
       | None => (Raise (OSError path), after st1 [EStat path])
       end
  /\ (exists_ (NAME_MAX w) (PATH_MAX w) (disk w) (cwd w) path = Some true -> platform w = "darwin" ->
      plays_then_reports w st1 exc).
Proof.
  intros st1 path.
  destruct (notify_exceptions_installs w st) as (Hhook & Htheme & _).
  fold st1 in Hhook, Htheme.
  assert (uncaught w exc st1 = except_hook w exc st1) as Hunc
    by (unfold uncaught; by rewrite Hhook).
  rewrite except_hook_steps in Hunc. cbv zeta in Hunc.
  rewrite Htheme in Hunc. fold path in Hunc.
  split; [done|]. split; [done|].
  intros Hex Hp. rewrite Hex, Hp in Hunc. simpl in Hunc.
  exists [EStat path; EPopen ("afplay " +:+ str path) DEVNULL], [].
  split; [|done].
  by rewrite (emitted_after _ _ _ _ Hunc).
Qed.

Lemma hook_plays_then_reports_witness :
  plays_then_reports Sample.mac (notify_exceptions Sample.mac initial).2
    Sample.key_error.
Proof.
  apply (hook_plays_then_reports Sample.mac initial Sample.key_error);
    vm_compute; reflexivity.
Defined.

(** C8, as stated, fails: on [linux] the hook raises the [RuntimeError] of
    an unsupported platform; no player has been spawned and the default
    hook has not reported the exception. *)
Lemma hook_unsupported_platform :
  ~ plays_then_reports Sample.linux (notify_exceptions Sample.linux initial).2
      Sample.key_error.
Proof.
  intros (pre & post & Hev & _).
  assert (emitted (uncaught Sample.linux Sample.key_error)
            (notify_exceptions Sample.linux initial).2
          = [EStat (mkPath "/" ["pkg"; "themes"; "mario"; "error.wav"])]) as Hem
    by reflexivity.
  rewrite Hem in Hev.
  destruct pre as [|ev [|ev' pre]]; discriminate Hev.
Qed.

(** * Further properties *)

(** ** Paths of sounds *)

Lemma split_on_plain (s : string) :
  plain s = true -> Text.split_on "/" s = [s].
Proof.
  induction s as [|a s IH]; simpl; [done|].
  intros [Ha Hs]%andb_prop. apply negb_true_iff in Ha. rewrite Ha.
  by rewrite (IH Hs).
Qed.

Lemma startswith_plain (p s : string) :
  plain s = true -> Text.startswith (String "/" p) s = false.
Proof.
  destruct s as [|a s]; cbn -[Ascii.ascii_dec]; [done|].
  intros [Ha _]%andb_prop. apply negb_true_iff, Ascii.eqb_neq in Ha.
  destruct (Ascii.ascii_dec "/" a) as [<-|]; [by destruct Ha|done].
Qed.

Lemma parse_plain (s : string) :
  plain s = true -> keep s = true -> parse s = mkPath "" [s].
Proof.
  intros Hs Hk. unfold parse.
  rewrite !(startswith_plain _ _ Hs), (split_on_plain _ Hs).
  simpl. by rewrite Hk.
Qed.

Lemma plain_wav (event : string) :
  plain event = true -> plain (event +:+ ".wav") = true.
Proof.
  induction event as [|a e IH]; simpl; [done|].
  intros [Ha He]%andb_prop. by rewrite Ha, (IH He).
Qed.

Lemma keep_wav (event : string) : keep (event +:+ ".wav") = true.
Proof.
  unfold keep. apply andb_true_intro. split; apply negb_true_iff, String.eqb_neq.
  - by destruct event.
  - by destruct event as [|a [|b e]].
Qed.

Lemma joinpath_plain (p : Path) (s : string) :
  plain s = true -> keep s = true ->
  joinpath p s = mkPath (anchor p) (parts p ++ [s]).
Proof. intros Hs Hk. unfold joinpath. by rewrite (parse_plain _ Hs Hk). Qed.

(** The sound of [event] under [theme], for names without a slash, is the
    file [themes/<theme>/<event>.wav] beside the module. *)
Theorem sound_path_layout (w : World) (theme event : string) :
  plain theme = true -> keep theme = true -> plain event = true ->
  sound_path w theme event
  = mkPath (anchor (here w))
           (parts (here w) ++ ["themes"; theme; event +:+ ".wav"]).
Proof.
  intros Ht Hk He. unfold sound_path.
  rewrite (joinpath_plain _ theme Ht Hk).
  rewrite (joinpath_plain _ _ (plain_wav _ He) (keep_wav _)).
  rewrite themes_dir_parts. simpl. by rewrite <- !app_assoc.
Qed.

Lemma sound_path_layout_witness :
  sound_path Sample.mac "zelda" "level-up"
  = mkPath "/" ["pkg"; "themes"; "zelda"; "level-up.wav"].
Proof.
  exact (sound_path_layout Sample.mac "zelda" "level-up" eq_refl eq_refl eq_refl).
Defined.

(** An event name that starts with a slash leaves the themes directory:
    the sound is looked for at the absolute path [<event>.wav], whatever the
    theme and wherever the module is installed. *)
Theorem sound_path_anchored (w : World) (theme event : string) :
  Text.startswith "/" event = true ->
  sound_path w theme event = parse (event +:+ ".wav")
  /\ anchor (sound_path w theme event) ≠ "".
Proof.
  intros Hev. apply startswith_slash_wav in Hev.
  assert (String.eqb (anchor (parse (event +:+ ".wav"))) "" = false) as Hanchor.
  { unfold parse. simpl anchor. rewrite Hev.
    by destruct (Text.startswith "///" (event +:+ ".wav")),
                (Text.startswith "//" (event +:+ ".wav")). }
  assert (sound_path w theme event = parse (event +:+ ".wav")) as Hpath.
  { unfold sound_path, joinpath at 1. cbv zeta. by rewrite Hanchor. }
  split; [done|]. rewrite Hpath. by apply String.eqb_neq.
Qed.

Lemma sound_path_anchored_witness :
  sound_path Sample.mac "mario" "/tmp/beep" = mkPath "/" ["tmp"; "beep.wav"]
  /\ anchor (sound_path Sample.mac "mario" "/tmp/beep") ≠ "".
Proof.
  exact (sound_path_anchored Sample.mac "mario" "/tmp/beep" eq_refl).
Defined.

(** ** The themes root *)

(** When the themes root is not a directory that can be listed, [themes()]
    raises [OSError], and so does the setter for every name. *)
Theorem themes_root_unlistable (w : World) (st : State) (name : string) :
  (forall es, resolve (NAME_MAX w) (PATH_MAX w) (disk w) (cwd w) (themes_dir w) ≠ Some (Dir es)) ->
  themes w st
  = (Raise (OSError (themes_dir w)), after st [EListdir (themes_dir w)])
  /\ theme w (Some name) st
     = (Raise (OSError (themes_dir w)), after st [EListdir (themes_dir w)]).
Proof.
  intros Hroot.
  assert (themes w st
          = (Raise (OSError (themes_dir w)), after st [EListdir (themes_dir w)]))
    as Hlist.
  { rewrite themes_listing.
    destruct (resolve (NAME_MAX w) (PATH_MAX w) (disk w) (cwd w) (themes_dir w)) as [[|es]|]; try done.
    by destruct (Hroot es). }
  split; [done|]. by rewrite theme_setter, Hlist.
Qed.

Lemma themes_root_unlistable_witness :
  themes Setup.bare initial
  = (Raise (OSError (mkPath "/" ["pkg"; "themes"])),
     after initial [EListdir (mkPath "/" ["pkg"; "themes"])])
  /\ theme Setup.bare (Some "mario") initial
     = (Raise (OSError (mkPath "/" ["pkg"; "themes"])),
        after initial [EListdir (mkPath "/" ["pkg"; "themes"])]).
Proof.
  apply (themes_root_unlistable Setup.bare initial "mario").
  intros es. vm_compute. discriminate.
Defined.

(** The setter succeeds exactly for the names of the entries of the themes
    root: it then assigns the name and touches nothing else; for any other
    name it raises and assigns nothing. *)
Theorem theme_succeeds_iff_entry (w : World) (st : State) (name : string)
    (es : list (string * node)) :
  resolve (NAME_MAX w) (PATH_MAX w) (disk w) (cwd w) (themes_dir w) = Some (Dir es) ->
  theme w (Some name) st
  = if bool_decide (name ∈ es.*1)
    then (Ok None,
          mkState name (excepthook st) (registered st)
                  (trace st ++ [EListdir (themes_dir w)]))
    else (Raise (ValueError ("Unknown theme (" +:+ name +:+ ")")),
          after st [EListdir (themes_dir w)]).
Proof.
  intros Hroot. rewrite theme_setter, themes_listing, Hroot.
  destruct (decide (name ∈ es.*1)) as [Hin|Hout].
  - rewrite (bool_decide_eq_true_2 _ Hin).
    rewrite bool_decide_eq_false_2; [done|].
    intros Hno. apply Hno. by apply elem_of_list_to_set.
  - rewrite (bool_decide_eq_false_2 _ Hout).
    rewrite bool_decide_eq_true_2; [done|].
    by rewrite elem_of_list_to_set.
Qed.

Lemma theme_succeeds_iff_entry_witness :
  theme Sample.mac (Some "zelda") initial
  = if bool_decide ("zelda" ∈ ["mario"; "zelda"; ".DS_Store"])
    then (Ok None,
          mkState "zelda" builtin_hook [] [EListdir (themes_dir Sample.mac)])
    else (Raise (ValueError "Unknown theme (zelda)"),
          after initial [EListdir (themes_dir Sample.mac)]).
Proof.
  exact (theme_succeeds_iff_entry Sample.mac initial "zelda" _ sample_themes_root).
Defined.

Lemma theme_set_state (w : World) (st st1 : State) (name : string)
    (r : option string) :
  theme w (Some name) st = (Ok r, st1) -> THEME st1 = name /\ r = None.
Proof.
  rewrite theme_setter.
  destruct (themes w st) as [[known|e] st']; [|discriminate].
  destruct (bool_decide (name ∉ known)); [discriminate|].
  by intros [= <- <-].
Qed.

Lemma walk_through_file (name_max : nat) (up : list node) (cur : node)
    (ws1 ws2 : list string) :
  walk name_max up cur ws1 = Found File -> ws2 ≠ [] ->
  walk name_max up cur (ws1 ++ ws2) = Absent.
Proof.
  revert up cur. induction ws1 as [|w1 ws1 IH]; intros up cur Hfile Hmore.
  - simpl in Hfile. injection Hfile as ->.
    destruct ws2 as [|w2 ws2]; [done|]. reflexivity.
  - rewrite <- app_comm_cons. simpl in *.
    destruct cur as [|es]; [done|].
    destruct (String.eqb w1 "."); [by apply IH|].
    destruct (String.eqb w1 "..").
    + destruct up as [|d up']; by apply IH.
    + destruct (Nat.ltb name_max (String.length w1)); [done|].
      destruct (entry w1 es); [by apply IH|done].
Qed.

(** The setter takes the name of a plain file under the themes root as a
    theme; once it has, no sound with a slash-free name can be played: as
    long as the name of the sound file and its path are within the limits
    of the file system, [notify] raises the [ValueError] of an undefined
    sound. *)
Theorem file_theme_has_no_sound (w : World) (st st1 : State)
    (name event : string) (r : option string) (silent : bool) :
  theme w (Some name) st = (Ok r, st1) ->
  resolve (NAME_MAX w) (PATH_MAX w) (disk w) (cwd w) (joinpath (themes_dir w) name)
  = Some File ->
  plain event = true ->
  String.length (event +:+ ".wav") <= NAME_MAX w ->
  String.length (str (sound_path w name event)) < PATH_MAX w ->
  notify w event silent st1
  = (Raise (ValueError (str (sound_path w name event) +:+ " is undefined")),
     after st1 [EStat (sound_path w name event)]).
Proof.
  intros Hset Hfile Hev _ Hpath. apply theme_set_state in Hset as [Htheme _].
  rewrite notify_steps, Htheme. cbv zeta.
  assert (exists_ (NAME_MAX w) (PATH_MAX w) (disk w) (cwd w)
            (sound_path w name event) = Some false) as ->; [|done].
  unfold exists_, locate. apply Nat.leb_gt in Hpath. rewrite Hpath.
  unfold resolve, locate in Hfile.
  destruct (Nat.leb (PATH_MAX w) _); [done|].
  unfold sound_path.
  rewrite (joinpath_plain _ _ (plain_wav _ Hev) (keep_wav _)). simpl.
  destruct (String.eqb (anchor (joinpath (themes_dir w) name)) "").
  - destruct (walk _ _ _ (cwd w ++ _)) as [[|es]| |] eqn:Hwalk; try done.
    by rewrite app_assoc, (walk_through_file _ _ _ _ _ Hwalk).
  - destruct (walk _ _ _ (parts _)) as [[|es]| |] eqn:Hwalk; try done.
    by rewrite (walk_through_file _ _ _ _ _ Hwalk).
Qed.

Lemma file_theme_has_no_sound_witness :
  theme Sample.mac (Some ".DS_Store") initial
  = (Ok None, mkState ".DS_Store" builtin_hook [] [EListdir (themes_dir Sample.mac)])
  /\ notify Sample.mac "success" true
       (mkState ".DS_Store" builtin_hook [] [EListdir (themes_dir Sample.mac)])
     = (Raise (ValueError "/pkg/themes/.DS_Store/success.wav is undefined"),
        after (mkState ".DS_Store" builtin_hook [] [EListdir (themes_dir Sample.mac)])
              [EStat (mkPath "/" ["pkg"; "themes"; ".DS_Store"; "success.wav"])]).
Proof.
  assert (theme Sample.mac (Some ".DS_Store") initial
          = (Ok None,
             mkState ".DS_Store" builtin_hook [] [EListdir (themes_dir Sample.mac)]))
    as Hset by (vm_compute; reflexivity).
  split; [exact Hset|].
  apply (file_theme_has_no_sound Sample.mac initial _ ".DS_Store" "success" None true
           Hset eq_refl eq_refl).
  - apply Nat.leb_le. reflexivity.
  - apply Nat.ltb_lt. reflexivity.
Defined.

(** After the setter has returned normally, every wrapper looks for its
    sound under the new theme, in whatever world it is then called. *)
Theorem theme_switch_redirects (w w' : World) (st st1 : State) (name : string)
    (r : option string) (silent : option bool) :
  theme w (Some name) st = (Ok r, st1) ->
  resolves_to w' (success w' silent) st1 (sound_path w' name "success")
    (default true silent)
  /\ resolves_to w' (warning w' silent) st1 (sound_path w' name "warning")
       (default true silent)
  /\ resolves_to w' (error w' silent) st1 (sound_path w' name "error")
       (default true silent)
  /\ resolves_to w' (info w' silent) st1 (sound_path w' name "info")
       (default true silent).
Proof.
  intros Hset. apply theme_set_state in Hset as [<- _].
  repeat split; apply notify_resolves.
Qed.

Lemma theme_switch_redirects_witness :
  resolves_to Sample.mac (success Sample.mac None)
    (theme Sample.mac (Some "zelda") initial).2
    (mkPath "/" ["pkg"; "themes"; "zelda"; "success.wav"]) true.
Proof.
  refine (proj1 (theme_switch_redirects Sample.mac Sample.mac initial _ "zelda"
                   None None _)).
  vm_compute. reflexivity.
Defined.

(** ** The player *)

Lemma utf8_valid_ascii (bs : list N) :
  Forall (fun b => (b < 128)%N) bs -> Text.utf8_valid bs = true.
Proof.
  induction 1 as [|b bs Hb _ IH]; simpl; [done|].
  apply N.ltb_lt in Hb. by rewrite Hb.
Qed.

Lemma decode_ascii (bs : list byte) :
  ascii_only bs -> Text.decode bs = Some (string_of_list_byte bs).
Proof.
  intros Hbs. unfold Text.decode.
  rewrite utf8_valid_ascii; [done|]. by apply Forall_fmap.
Qed.

(** A blocking run whose child writes only ASCII to its error output
    returns normally: without a warning when the child exits with status 0,
    with one warning that carries the stripped output otherwise. *)
Theorem run_blocking_ascii_stderr (w : World) (st : State) (command : string) :
  ascii_only (stderr (shell w command)) ->
  run w command false st
  = (Ok tt,
     after st
       (ERun command ::
        if (returncode (shell w command) =? 0)%Z then []
        else [EWarn (str_CalledProcessError w command (returncode (shell w command))
                       +:+ " stderr: "
                       +:+ Text.strip (string_of_list_byte (stderr (shell w command))))])).
Proof.
  intros Hascii. rewrite run_blocking. cbv zeta.
  destruct (returncode (shell w command) =? 0)%Z; [done|].
  by rewrite (decode_ascii _ Hascii).
Qed.

Lemma run_blocking_ascii_stderr_witness :
  run (with_shell Sample.mac Sample.failing) "afplay /tmp/a.wav" false initial
  = (Ok tt,
     after initial
       [ERun "afplay /tmp/a.wav";
        EWarn ("Command 'afplay /tmp/a.wav' returned non-zero exit status 1."
                 +:+ " stderr: Error: AudioFileOpen failed")]).
Proof.
  refine (run_blocking_ascii_stderr (with_shell Sample.mac Sample.failing)
            initial "afplay /tmp/a.wav" _).
  repeat constructor.
Defined.

Lemma run_detached (w : World) (command : string) (st : State) :
  run w command true st = (Ok tt, after st [EPopen command DEVNULL]).
Proof. reflexivity. Qed.

(** On [darwin], a call of [play_wav] spawns exactly one process, whatever
    the flag and whatever the child does, and its command is [afplay]
    followed by the path. *)
Theorem play_wav_spawns_once (w : World) (st : State) (path : Path)
    (silent : option bool) :
  platform w = "darwin" ->
  commands (emitted (play_wav w path silent) st) = ["afplay " +:+ str path].
Proof.
  intros Hp. unfold play_wav. rewrite Hp. cbv zeta.
  change (String.eqb "darwin" "darwin") with true. cbv iota.
  destruct (default false silent).
  - by rewrite (emitted_after _ _ _ _ (run_detached w ("afplay " +:+ str path) st)).
  - pose proof (run_blocking w ("afplay " +:+ str path) st) as Hrun.
    cbv zeta in Hrun.
    destruct (returncode _ =? 0)%Z; [|destruct (Text.decode _)];
      by rewrite (emitted_after _ _ _ _ Hrun).
Qed.

Lemma play_wav_spawns_once_witness :
  commands (emitted (play_wav (with_shell Sample.mac Sample.garbled)
                       (mkPath "/" ["tmp"; "a.wav"]) None) initial)
  = ["afplay /tmp/a.wav"].
Proof.
  exact (play_wav_spawns_once (with_shell Sample.mac Sample.garbled) initial
           (mkPath "/" ["tmp"; "a.wav"]) None eq_refl).
Defined.

(** On [darwin], a blocking notification of a sound that exists, with a
    player that writes only ASCII to its error output, returns normally
    whether the player succeeds or not. *)
Theorem notify_blocking_completes (w : World) (st : State) (event : string) :
  platform w = "darwin" ->
  exists_ (NAME_MAX w) (PATH_MAX w) (disk w) (cwd w) (sound_path w (THEME st) event) = Some true ->
  (forall command, ascii_only (stderr (shell w command))) ->
  (notify w event false st).1 = Ok tt.
Proof.
  intros Hp Hex Hascii. rewrite notify_steps. cbv zeta. rewrite Hex.
  unfold play_wav. rewrite Hp. cbv zeta.
  change (String.eqb "darwin" "darwin") with true. cbv iota. simpl default.
  by rewrite (run_blocking_ascii_stderr _ _ _ (Hascii _)).
Qed.

Lemma notify_blocking_completes_witness :
  (notify (with_shell Sample.mac Sample.failing) "warning" false initial).1 = Ok tt.
Proof.
  apply (notify_blocking_completes (with_shell Sample.mac Sample.failing)
           initial "warning" eq_refl eq_refl).
  intros command. repeat constructor.
Defined.

(** ** The exception hook over a session *)

Lemma hook_ret {A : Type} (a : A) : keeps_hook (ret a).
Proof. by intros st. Qed.

Lemma hook_raise {A : Type} (e : exn) : keeps_hook (@raise A e).
Proof. by intros st. Qed.

Lemma hook_emit (ev : effect) : keeps_hook (emit ev).
Proof. by intros st. Qed.

Lemma hook_bind {A B : Type} (c : M A) (k : A -> M B) :
  keeps_hook c -> (forall a, keeps_hook (k a)) -> keeps_hook (bind c k).
Proof.
  intros Hc Hk st. unfold bind. specialize (Hc st).
  destruct (c st) as [[a|e] st']; simpl in *; [|done].
  by rewrite Hk.
Qed.

Create HintDb hooks.
#[local] Hint Resolve hook_ret hook_raise hook_emit : hooks.

Ltac hooks :=
  repeat first
    [ progress auto with hooks
    | apply hook_bind; [|intros ?]
    | match goal with
      | |- keeps_hook (if ?b then _ else _) => destruct b
      | |- keeps_hook (match ?x with _ => _ end) => destruct x
      end ].

Lemma hook_run (w : World) (command : string) (silent : bool) :
  keeps_hook (run w command silent).
Proof. unfold run. hooks. Qed.
#[local] Hint Resolve hook_run : hooks.

Lemma hook_play_wav (w : World) (path : Path) (silent : option bool) :
  keeps_hook (play_wav w path silent).
Proof. unfold play_wav. cbv zeta. hooks. Qed.
#[local] Hint Resolve hook_play_wav : hooks.

Lemma hook_themes (w : World) : keeps_hook (themes w).
Proof. unfold themes. hooks. Qed.
#[local] Hint Resolve hook_themes : hooks.

Lemma hook_theme (w : World) (name : option string) : keeps_hook (theme w name).
Proof.
  destruct name as [name|]; [|by intros st].
  unfold theme. apply hook_bind; [auto with hooks|intros known].
  destruct (bool_decide (name ∉ known)); [auto with hooks|].
  apply hook_bind; [by intros st|auto with hooks].
Qed.

Lemma hook_notify (w : World) (event : string) (silent : bool) :
  keeps_hook (notify w event silent).
Proof.
  unfold notify. apply hook_bind; [by intros st|intros dir].
  cbv zeta. hooks.
Qed.
#[local] Hint Resolve hook_notify : hooks.

Lemma hook_except_hook (w : World) (exc : exn) : keeps_hook (except_hook w exc).
Proof. unfold except_hook, error. hooks. Qed.

Lemma hook_post_run_cell (w : World) (b : bool) : keeps_hook (post_run_cell w b).
Proof. unfold post_run_cell, error. hooks. Qed.

Lemma hook_uncaught (w : World) (exc : exn) : keeps_hook (uncaught w exc).
Proof.
  intros st. unfold uncaught. destruct (excepthook st) eqn:Hh.
  - by rewrite emit_after.
  - rewrite hook_except_hook. done.
Qed.

Lemma exec_keeps_hook (w : World) (c : call) (st : State) :
  is_notify_exceptions c = false -> excepthook (exec w c st) = excepthook st.
Proof.
  destruct c; simpl; intros Hc; try done.
  - apply hook_run.
  - apply hook_play_wav.
  - apply hook_themes.
  - apply hook_theme.
  - apply hook_notify.
  - apply hook_notify.
  - apply hook_notify.
  - apply hook_notify.
  - apply hook_notify.
  - apply hook_post_run_cell.
  - apply hook_uncaught.
Qed.

Lemma exec_keeps_installed (w : World) (c : call) (st : State) :
  excepthook st = except_hook_closure ->
  excepthook (exec w c st) = except_hook_closure.
Proof.
  intros Hh. destruct (is_notify_exceptions c) eqn:Hc.
  - destruct c; try discriminate. simpl.
    apply notify_exceptions_installs.
  - by rewrite exec_keeps_hook.
Qed.

(** Over any session of calls, [sys.excepthook] changes through
    [notify_exceptions] alone, and once the module's hook is in place no
    call of the module takes it out again. *)
Theorem hook_changes_by_notify_exceptions_only (cs : list (World * call))
    (st : State) :
  (Forall (fun wc => is_notify_exceptions wc.2 = false) cs ->
   excepthook (session cs st) = excepthook st)
  /\ (excepthook st = except_hook_closure ->
      excepthook (session cs st) = except_hook_closure).
Proof.
  split.
  - intros Hcs. revert st.
    induction Hcs as [|[w c] cs Hc _ IH]; intros st; simpl; [done|].
    rewrite IH. by apply exec_keeps_hook.
  - revert st. induction cs as [|[w c] cs IH]; intros st Hh; simpl; [done|].
    apply IH. by apply exec_keeps_installed.
Qed.

Lemma hook_changes_by_notify_exceptions_only_witness :
  excepthook (session [(Sample.mac, call_theme (Some "zelda"));
                       (Sample.linux, call_uncaught Sample.key_error)] initial)
  = builtin_hook
  /\ excepthook (session [(Sample.mac, call_theme (Some "zelda"));
                          (Sample.linux, call_uncaught Sample.key_error)]
                   (notify_exceptions Sample.mac initial).2)
     = except_hook_closure.
Proof.
  split.
  - apply (proj1 (hook_changes_by_notify_exceptions_only _ initial)).
    repeat constructor.
  - apply (proj2 (hook_changes_by_notify_exceptions_only _ _)).
    reflexivity.
Defined.

(** Where IPython can be imported but no notebook shell is running,
    [notify_exceptions()] raises [NameError] on [get_ipython]; by then the
    hook has been installed, so a later uncaught exception still goes
    through it; nothing has been registered. *)
Theorem notify_exceptions_outside_notebook (w w' : World) (st : State) (exc : exn) :
  IPYTHON_INSTALLED w = true -> ipython_shell w = false ->
  notify_exceptions w st
  = (Raise (NameError "get_ipython"),
     mkState (THEME st) except_hook_closure (registered st) (trace st))
  /\ uncaught w' exc (notify_exceptions w st).2
     = except_hook w' exc (notify_exceptions w st).2.
Proof.
  intros Hinst Hshell.
  assert (notify_exceptions w st
          = (Raise (NameError "get_ipython"),
             mkState (THEME st) except_hook_closure (registered st) (trace st)))
    as Hraise.
  { unfold notify_exceptions, bind, set_excepthook. by rewrite Hinst, Hshell. }
  split; [done|]. by rewrite Hraise.
Qed.

Lemma notify_exceptions_outside_notebook_witness :
  notify_exceptions Setup.script initial
  = (Raise (NameError "get_ipython"), mkState "mario" except_hook_closure [] [])
  /\ uncaught Setup.script Sample.key_error (notify_exceptions Setup.script initial).2
     = except_hook Setup.script Sample.key_error
         (notify_exceptions Setup.script initial).2.
Proof.
  exact (notify_exceptions_outside_notebook Setup.script Setup.script initial
           Sample.key_error eq_refl eq_refl).
Defined.

(** In a notebook, each call of [notify_exceptions()] registers one more
    [post_run_cell] callback and removes none. *)
Theorem notify_exceptions_registers (w : World) (st : State) :
  IPYTHON_INSTALLED w = true -> ipython_shell w = true ->
  notify_exceptions w st
  = (Ok tt,
     mkState (THEME st) except_hook_closure
             (registered st ++ [("post_run_cell", Watcher_post_run_cell)])
             (trace st)).
Proof.
  intros Hinst Hshell.
  unfold notify_exceptions, bind, set_excepthook. by rewrite Hinst, Hshell.
Qed.

Lemma notify_exceptions_registers_witness :
  registered (notify_exceptions Setup.notebook
                (notify_exceptions Setup.notebook initial).2).2
  = [("post_run_cell", Watcher_post_run_cell);
     ("post_run_cell", Watcher_post_run_cell)].
Proof.
  rewrite (notify_exceptions_registers Setup.notebook initial eq_refl eq_refl).
  rewrite (notify_exceptions_registers Setup.notebook _ eq_refl eq_refl).
  reflexivity.
Defined.

(** With the module's hook in place, an uncaught exception is handled with
    the theme current at that time: the hook probes that theme's error
    sound, and only when the sound exists on [darwin] does it spawn the
    player and reach the default hook. *)
Theorem installed_hook_follows_theme (w : World) (st : State) (exc : exn) :
  excepthook st = except_hook_closure ->
  uncaught w exc st =
  let path := sound_path w (THEME st) "error" in
  match exists_ (NAME_MAX w) (PATH_MAX w) (disk w) (cwd w) path with
  | Some true =>
      if String.eqb (platform w) "darwin"
      then (Ok tt, after st [EStat path; EPopen ("afplay " +:+ str path) DEVNULL;
                             EDefaultHook exc])
      else (Raise (RuntimeError ("Unsupported platform (" +:+ platform w +:+ ")")),
            after st [EStat path])
  | Some false =>
      (Raise (ValueError (str path +:+ " is undefined")), after st [EStat path])
  | None => (Raise (OSError path), after st [EStat path])
  end.
Proof.
  intros Hh. unfold uncaught. rewrite Hh. apply except_hook_steps.
Qed.

Lemma installed_hook_follows_theme_witness :
  (uncaught Sample.mac Sample.key_error
     (session [(Sample.mac, call_notify_exceptions);
               (Sample.mac, call_theme (Some "zelda"))] initial)).1
  = Raise (ValueError "/pkg/themes/zelda/error.wav is undefined").
Proof.
  rewrite (installed_hook_follows_theme Sample.mac
             (session [(Sample.mac, call_notify_exceptions);
                       (Sample.mac, call_theme (Some "zelda"))] initial)
             Sample.key_error eq_refl).
  vm_compute. reflexivity.
Defined.

(** ** The notebook callback and the magic *)

Lemma post_run_cell_steps (w : World) (b : bool) (st : State) :
  post_run_cell w b st =
  if b then notify w "error" true (after st [EPrint "dir(result)"])
  else (Ok tt, after st [EPrint "dir(result)"]).
Proof.
  unfold post_run_cell, bind, error. rewrite emit_after. by destruct b.
Qed.

(** The callback prints the attributes of the result of every cell; it
    spawns the player, once, only for a cell that failed, and only when the
    error sound of the current theme exists on [darwin]. *)
Theorem post_run_cell_spawns (w : World) (st : State) (error_in_exec : bool) :
  head (emitted (post_run_cell w error_in_exec) st) = Some (EPrint "dir(result)")
  /\ commands (emitted (post_run_cell w error_in_exec) st)
     = if error_in_exec
          && bool_decide (exists_ (NAME_MAX w) (PATH_MAX w) (disk w) (cwd w)
                            (sound_path w (THEME st) "error") = Some true)
          && String.eqb (platform w) "darwin"
       then ["afplay " +:+ str (sound_path w (THEME st) "error")]
       else [].
Proof.
  pose proof (post_run_cell_steps w error_in_exec st) as Hsteps.
  destruct error_in_exec.
  - rewrite notify_silent in Hsteps. cbv zeta in Hsteps.
    change (THEME (after st [EPrint "dir(result)"])) with (THEME st) in Hsteps.
    rewrite andb_true_l.
    destruct (exists_ _ _ _ _ _) as [[|]|]; [destruct (String.eqb _ _)| |];
      rewrite after_after in Hsteps;
      by rewrite (emitted_after _ _ _ _ Hsteps).
  - by rewrite (emitted_after _ _ _ _ Hsteps).
Qed.

Section MagicFacts.

Variable derives_Exception : string -> bool.
Variable client : string -> State -> result unit * State * World.

Let horn := Magics.horn derives_Exception client.


Lemma success_raises_Exception (w : World) (st st' : State) (e : exn) :
  success w None st = (Raise e, st') -> Magics.is_Exception derives_Exception e = true.
Proof.
  unfold success. simpl default. rewrite notify_silent. cbv zeta.
  destruct (exists_ _ _ _ _ _) as [[|]|]; [destruct (String.eqb _ _)| |];
    by intros [= <- _].
Qed.

(** When the client code runs through but the success sound cannot be
    played (its file is missing, or the platform is not [darwin]), the magic
    goes on as if the code had failed: it calls [error()], and what that
    call does is the outcome. *)
Theorem horn_success_falls_back (line : string) (cell : option string)
    (st st1 st2 : State) (w1 : World) (e : exn) :
  client line st = (Ok tt, st1, w1) ->
  success w1 None st1 = (Raise e, st2) ->
  horn line cell st = error w1 None st2.
Proof.
  intros Hclient Hsucc. pose proof (success_raises_Exception _ _ _ _ Hsucc) as Hexc.
  unfold horn, Magics.horn.
  destruct cell; unfold Magics.horn_run; by rewrite Hclient, Hsucc, Hexc.
Qed.

(** When the client code raises, the magic plays the error sound if the
    exception derives from [Exception], and the exception is then dropped;
    any other exception leaves the magic without a sound. *)
Theorem horn_client_raises (line : string) (cell : option string)
    (st st1 : State) (w1 : World) (e : exn) :
  client line st = (Raise e, st1, w1) ->
  horn line cell st
  = if Magics.is_Exception derives_Exception e then error w1 None st1
    else (Raise e, st1).
Proof.
  intros Hclient. unfold horn, Magics.horn.
  destruct cell; unfold Magics.horn_run; by rewrite Hclient.
Qed.

End MagicFacts.

Lemma horn_success_falls_back_witness :
  Magics.horn Setup.all_exceptions (Setup.idle Sample.linux) "x = 1" None initial
  = error Sample.linux None
      (after initial [EStat (mkPath "/" ["pkg"; "themes"; "mario"; "success.wav"])]).
Proof.
  apply (horn_success_falls_back Setup.all_exceptions (Setup.idle Sample.linux)
           "x = 1" None initial initial
           (after initial [EStat (mkPath "/" ["pkg"; "themes"; "mario"; "success.wav"])])
           Sample.linux (RuntimeError "Unsupported platform (linux)")).
  - reflexivity.
  - reflexivity.
Defined.

Lemma horn_client_raises_witness :
  Magics.horn Setup.all_exceptions (Setup.faulty Sample.mac) "1/0" (Some "pass") initial
  = (Ok tt,
     after initial [EStat (mkPath "/" ["pkg"; "themes"; "mario"; "error.wav"]);
                    EPopen "afplay /pkg/themes/mario/error.wav" DEVNULL]).
Proof.
  rewrite (horn_client_raises Setup.all_exceptions (Setup.faulty Sample.mac)
             "1/0" (Some "pass") initial initial Sample.mac Sample.key_error eq_refl).
  reflexivity.
Defined.

(** ** The current theme over a session *)

Lemma validated_later (wc : World * call) (cs : list (World * call)) (name : string) :
  validated cs name -> validated (wc :: cs) name.
Proof.
  intros (w & es & Hin & Hroot & Hname). exists w, es.
  split; [by apply list_elem_of_further|done].
Qed.

Lemma exec_theme_validated (w : World) (c : call) (st : State) :
  THEME (exec w c st) = THEME st
  \/ validated [(w, c)] (THEME (exec w c st)).
Proof.
  destruct (is_setter c) eqn:Hc; [|left; by apply exec_keeps_theme].
  destruct c as [| | |[name|]| | | | | | | |]; try discriminate. unfold exec.
  rewrite theme_setter, themes_listing.
  destruct (resolve (NAME_MAX w) (PATH_MAX w) (disk w) (cwd w) (themes_dir w)) as [[|es]|] eqn:Hroot;
    try (by left).
  destruct (decide (name ∈ es.*1)) as [Hin|Hout].
  - rewrite bool_decide_eq_false_2.
    + right. exists w, es. simpl. split; [apply list_elem_of_here|done].
    + intros Hno. apply Hno. by apply elem_of_list_to_set.
  - rewrite bool_decide_eq_true_2; [by left|].
    by rewrite elem_of_list_to_set.
Qed.

Lemma session_theme_validated (cs : list (World * call)) (st : State) :
  THEME (session cs st) = THEME st \/ validated cs (THEME (session cs st)).
Proof.
  revert st. induction cs as [|[w c] cs IH]; intros st; simpl; [by left|].
  destruct (IH (exec w c st)) as [Hsame | Hval].
  - rewrite Hsame.
    destruct (exec_theme_validated w c st) as [Hkeep | (w' & es & Hin & Hroot & Hname)].
    + by left.
    + right. exists w', es. split; [|done].
      apply list_elem_of_singleton in Hin as ->. apply list_elem_of_here.
  - right. by apply validated_later.
Qed.

(** Whatever calls a session makes, in whatever worlds, the current theme
    is either the built-in ["mario"] or a name the setter was called on
    while the themes root listed it. *)
Theorem current_theme_was_validated (cs : list (World * call)) :
  THEME (session cs initial) = "mario"
  \/ validated cs (THEME (session cs initial)).
Proof. apply (session_theme_validated cs initial). Qed.
